(** * Shallow embedding of attribute-wrapper: the property proxy of
    include/attr/property.hpp (GCC/Clang CRTP + offsetof branch) and the
    engaged/disengaged value box of include/attr/attr.hpp. *)

From Stdlib Require Import ZArith List Bool String Lia.
Import ListNotations.
Open Scope Z_scope.
Set Warnings "-register-all".

(** ** C++ copy-constructor derivation, as far as the proxy macros need it *)
Module CopyRules.

(** A user-declared copy constructor: [= delete] or a user-provided body. *)
Inductive copy_decl := CopyDeleted | CopyProvided.

(** A type: a scalar, or a class with an optional user-declared copy
    constructor and its subobjects (bases and non-static members). *)
Inductive cls :=
| Scalar
| Class (user_copy : option copy_decl) (subobjects : list cls).

(** [class.copy.ctor]: a user-declared copy constructor decides; an
    implicitly-declared one is defined as deleted as soon as one subobject
    cannot be copy-constructed. *)
Fixpoint copy_constructible (c : cls) : bool :=
  match c with
  | Scalar => true
  | Class (Some CopyDeleted) _ => false
  | Class (Some CopyProvided) _ => true
  | Class None subs =>
      (fix all (l : list cls) : bool :=
         match l with
         | [] => true
         | x :: r => copy_constructible x && all r
         end) subs
  end.

(** [PropertyBase(const PropertyBase&) = delete;] *)
Definition PropertyBase : cls := Class (Some CopyDeleted) [].

(** [struct PropName##_property_t final : public PropertyBase<...> { ... }]
    from TOUKA_PROPERTY_IMPL_: no copy constructor of its own. *)
Definition property_t : cls := Class None [PropertyBase].

(** [class BasicOwner { int value_ = 0; ... TOUKA_PROPERTY(...value...); }] *)
Definition BasicOwner : cls := Class None [Scalar; property_t].

End CopyRules.

(** ** The read-write property proxy *)
Module Property.

Definition addr := Z.

(** The compound-assignment operators of PropertyBase. *)
Inductive compound_op :=
| AddAssign | SubAssign | MulAssign | DivAssign | ModAssign
| AndAssign | OrAssign | XorAssign | ShlAssign | ShrAssign.

Section Proxy.
Context {Owner T : Type}.
(** [(owner()->*Getter)()] and [(owner()->*Setter)(value)]. *)
Variable Getter : Owner -> T.
Variable Setter : Owner -> T -> Owner.
(** [offsetof(OwnerType, PropName)], a constant of the owner type. *)
Variable offset : Z.

(** Owner objects, by the address they start at; [None]: no owner object
    there (using the proxy then is undefined behaviour). *)
Definition heap := addr -> option Owner.

Definition heap_upd (h : heap) (a : addr) (o : Owner) : heap :=
  fun b => if Z.eqb b a then Some o else h b.

(** [GetOwner]: [reinterpret_cast<char*>(this) - offset]. *)
Definition GetOwner (this : addr) : addr := this - offset.

(** [decltype(auto) get() const { return (owner()->*Getter)(); }]
    (operator T and get_value have the same body). *)
Definition get (h : heap) (this : addr) : option T :=
  match h (GetOwner this) with
  | Some o => Some (Getter o)
  | None => None
  end.

(** [invoke_getter]: the private helper of the compound operators. *)
Definition invoke_getter (h : heap) (this : addr) : option T :=
  match h (GetOwner this) with
  | Some o => Some (Getter o)
  | None => None
  end.

(** [Derived& operator=(const T& value)]: calls the setter on the owner
    and returns the proxy itself. *)
Definition assign (h : heap) (this : addr) (value : T) : option (heap * addr) :=
  match h (GetOwner this) with
  | Some o => Some (heap_upd h (GetOwner this) (Setter o value), this)
  | None => None
  end.

(** [void set(const T& value)]. *)
Definition set (h : heap) (this : addr) (value : T) : option heap :=
  match h (GetOwner this) with
  | Some o => Some (heap_upd h (GetOwner this) (Setter o value))
  | None => None
  end.

(** The value type's own binary operators; [None] where the operation is
    undefined behaviour (for [int]: overflow, division by zero, ...). *)
Variable binop : compound_op -> T -> T -> option T.

(** [Derived& operator+=(const T& v) { set(invoke_getter() + v); return *self(); }]
    and its nine siblings. *)
Definition compound (op : compound_op) (h : heap) (this : addr) (v : T)
  : option (heap * addr) :=
  match invoke_getter h this with
  | Some g =>
      match binop op g v with
      | Some r =>
          match set h this r with
          | Some h' => Some (h', this)
          | None => None
          end
      | None => None
      end
  | None => None
  end.

(** The value type's [++v] and [--v]; [None] where undefined. *)
Variable incr decr : T -> option T.

(** Prefix [++]: [T val = invoke_getter(); ++val; set(std::move(val)); return *self();] *)
Definition pre_inc (h : heap) (this : addr) : option (heap * addr) :=
  match invoke_getter h this with
  | Some val =>
      match incr val with
      | Some val =>
          match set h this val with
          | Some h' => Some (h', this)
          | None => None
          end
      | None => None
      end
  | None => None
  end.

(** Postfix [++]: [T old = invoke_getter(); T val = old; ++val; set(std::move(val)); return old;] *)
Definition post_inc (h : heap) (this : addr) : option (heap * T) :=
  match invoke_getter h this with
  | Some old =>
      match incr old with
      | Some val =>
          match set h this val with
          | Some h' => Some (h', old)
          | None => None
          end
      | None => None
      end
  | None => None
  end.

Definition pre_dec (h : heap) (this : addr) : option (heap * addr) :=
  match invoke_getter h this with
  | Some val =>
      match decr val with
      | Some val =>
          match set h this val with
          | Some h' => Some (h', this)
          | None => None
          end
      | None => None
      end
  | None => None
  end.

Definition post_dec (h : heap) (this : addr) : option (heap * T) :=
  match invoke_getter h this with
  | Some old =>
      match decr old with
      | Some val =>
          match set h this val with
          | Some h' => Some (h', old)
          | None => None
          end
      | None => None
      end
  | None => None
  end.

(** The value type's [v[i]]; [None] where it is undefined (out of range). *)
Context {Index Elem : Type}.
Variable index : T -> Index -> option Elem.

(** [auto operator[](Index&& i) const { return invoke_getter()[i]; }]:
    the [auto] return type makes the result a copy of the element. *)
Definition subscript (h : heap) (this : addr) (i : Index) : option Elem :=
  match invoke_getter h this with
  | Some c => index c i
  | None => None
  end.

(** [Elem]'s copy assignment, when [Elem] is a class type; [None] when
    [Elem] is a scalar type such as [int], whose prvalues cannot be
    assigned to. *)
Variable elem_assign : option (Elem -> Elem -> Elem).







(** An owner copy constructor written by the owner's author: copies the
    backing members and default-constructs the (stateless) proxy. *)
Definition owner_copy_construct (h : heap) (src dst : addr) : option heap :=
  match h src with
  | Some o => Some (heap_upd h dst o)
  | None => None
  end.

(** [O a; a.prop = v1; O b = a; b.prop = v2;] with [a] at [A], [b] at
    [B] and an owner-provided copy constructor: what [a.prop.get()] and
    [b.prop.get()] then read. *)
Definition copy_scenario (h : heap) (A B : addr) (v1 v2 : T)
  : option (option T * option T) :=
  match assign h (A + offset) v1 with
  | Some (h1, _) =>
      match owner_copy_construct h1 A B with
      | Some h2 =>
          match assign h2 (B + offset) v2 with
          | Some (h3, _) => Some (get h3 (A + offset), get h3 (B + offset))
          | None => None
          end
      | None => None
      end
  | None => None
  end.

End Proxy.

(** Test fixtures of property_test.cpp. *)
Record BasicOwner := mkBasicOwner { BasicOwner_value_ : Z }.
Definition BasicOwner_getValue (o : BasicOwner) : Z := BasicOwner_value_ o.
Definition BasicOwner_setValue (o : BasicOwner) (v : Z) : BasicOwner := mkBasicOwner v.

Record ValidatedOwner := mkValidatedOwner { ValidatedOwner_value_ : Z }.
Definition ValidatedOwner_getValue (o : ValidatedOwner) : Z := ValidatedOwner_value_ o.
(** [if (v < 0) v = 0; if (v > 100) v = 100; value_ = v;] *)
Definition ValidatedOwner_setValue (o : ValidatedOwner) (v : Z) : ValidatedOwner :=
  let v := if v <? 0 then 0 else v in
  let v := if v >? 100 then 100 else v in
  mkValidatedOwner v.

Record VectorOwner := mkVectorOwner { VectorOwner_data_ : list Z }.
Definition VectorOwner_getData (o : VectorOwner) : list Z := VectorOwner_data_ o.
Definition VectorOwner_setData (o : VectorOwner) (v : list Z) : VectorOwner := mkVectorOwner v.

(** [int] is 32 bits wide (GCC and Clang on the usual targets). *)
Definition INT_MIN : Z := - 2 ^ 31.
Definition INT_MAX : Z := 2 ^ 31 - 1.
Definition int_in_range (z : Z) : bool := (INT_MIN <=? z) && (z <=? INT_MAX).

(** A mathematical result that must be representable: signed overflow is
    undefined behaviour. *)
Definition int_result (z : Z) : option Z := if int_in_range z then Some z else None.

(** Reduction modulo 2^32 into the range of [int]. *)
Definition int_wrap (z : Z) : Z := (z + 2 ^ 31) mod 2 ^ 32 - 2 ^ 31.

(** [int]'s binary operators under C++20 ([expr.mul], [expr.add],
    [expr.shift], [expr.bit.and], ...); [None]: undefined behaviour. *)
Definition int_binop (op : compound_op) (a b : Z) : option Z :=
  match op with
  | AddAssign => int_result (a + b)
  | SubAssign => int_result (a - b)
  | MulAssign => int_result (a * b)
  | DivAssign => if b =? 0 then None else int_result (Z.quot a b)
  | ModAssign => if b =? 0 then None
                 else if int_in_range (Z.quot a b) then Some (Z.rem a b) else None
  | AndAssign => Some (Z.land a b)
  | OrAssign => Some (Z.lor a b)
  | XorAssign => Some (Z.lxor a b)
  | ShlAssign => if (0 <=? b) && (b <? 32) then Some (int_wrap (Z.shiftl a b)) else None
  | ShrAssign => if (0 <=? b) && (b <? 32) then Some (Z.shiftr a b) else None
  end.

(** [std::vector<int>::operator[]] on an index of type [size_t]. *)
Definition vector_index (v : list Z) (i : nat) : option Z := nth_error v i.

(** Memory holding one [ValidatedOwner] at address 1000. *)
Definition validated_heap (v : Z) : heap (Owner:=ValidatedOwner) :=
  fun a => if Z.eqb a 1000 then Some (mkValidatedOwner v) else None.

(** [ValidatedOwner::value] is its first and only proxy after one [int]. *)
Definition validated_offset : Z := 4.

(** Every mutating operation of [PropertyBase]. *)
Inductive write_op (T : Type) :=
| WAssign (v : T)                      (* operator=(const T&) *)
| WSet (v : T)                         (* set(const T&) *)
| WCompound (op : compound_op) (v : T) (* operator+= ... operator>>= *)
| WPreInc | WPostInc | WPreDec | WPostDec.
Arguments WAssign {T} v.
Arguments WSet {T} v.
Arguments WCompound {T} op v.
Arguments WPreInc {T}.
Arguments WPostInc {T}.
Arguments WPreDec {T}.
Arguments WPostDec {T}.

(** The owner memory after one mutating operation on the proxy at [this]. *)
Definition run_write {O T : Type} (Getter : O -> T) (Setter : O -> T -> O) (offset : Z)
    (binop : compound_op -> T -> T -> option T) (incr decr : T -> option T)
    (w : write_op T) (h : heap (Owner:=O)) (this : addr) : option (heap (Owner:=O)) :=
  match w with
  | WAssign v => option_map fst (assign Setter offset h this v)
  | WSet v => set Setter offset h this v
  | WCompound op v => option_map fst (compound Getter Setter offset binop op h this v)
  | WPreInc => option_map fst (pre_inc Getter Setter offset incr h this)
  | WPostInc => option_map fst (post_inc Getter Setter offset incr h this)
  | WPreDec => option_map fst (pre_dec Getter Setter offset decr h this)
  | WPostDec => option_map fst (post_dec Getter Setter offset decr h this)
  end.

(** [int]'s [++v] and [--v]. *)
Definition int_incr (v : Z) : option Z := int_result (v + 1).
Definition int_decr (v : Z) : option Z := int_result (v - 1).

(** The value a mutating operation hands to the setter, from the value
    [g] the getter returns; [None]: the value type's operator is
    undefined there. *)
Definition write_value {T : Type} (binop : compound_op -> T -> T -> option T)
    (incr decr : T -> option T) (w : write_op T) (g : T) : option T :=
  match w with
  | WAssign v | WSet v => Some v
  | WCompound op v => binop op g v
  | WPreInc | WPostInc => incr g
  | WPreDec | WPostDec => decr g
  end.

(** [PropertyBaseWriteOnly::operator=(const T& value)]:
    [(owner()->*Setter)(value); return *self();] *)
Definition wo_assign {O T : Type} (Setter : O -> T -> O) (offset : Z)
    (h : heap (Owner:=O)) (this : addr) (value : T) : option (heap (Owner:=O) * addr) :=
  match h (GetOwner offset this) with
  | Some o => Some (heap_upd h (GetOwner offset this) (Setter o value), this)
  | None => None
  end.



(** [MultiPropertyOwner] of property_test.cpp; [D] stands for [double],
    which the accessors only store and return. *)
Record MultiPropertyOwner (D : Type) :=
  mkMultiPropertyOwner { x_ : Z; y_ : Z; scale_ : D }.
Arguments mkMultiPropertyOwner {D} x_ y_ scale_.
Arguments x_ {D} m.
Arguments y_ {D} m.
Arguments scale_ {D} m.
Definition getX {D} (o : MultiPropertyOwner D) : Z := x_ o.
Definition setX {D} (o : MultiPropertyOwner D) (v : Z) := mkMultiPropertyOwner v (y_ o) (scale_ o).
Definition getY {D} (o : MultiPropertyOwner D) : Z := y_ o.
Definition setY {D} (o : MultiPropertyOwner D) (v : Z) := mkMultiPropertyOwner (x_ o) v (scale_ o).
Definition getScale {D} (o : MultiPropertyOwner D) : D := scale_ o.
Definition setScale {D} (o : MultiPropertyOwner D) (v : D) := mkMultiPropertyOwner (x_ o) (y_ o) v.

(** [WriteOnlyOwner] of property_test.cpp. *)
Record WriteOnlyOwner := mkWriteOnlyOwner { secret_ : string; secretSet_ : bool }.
(** [secret_ = std::move(v); secretSet_ = true;] *)
Definition setSecret (o : WriteOnlyOwner) (v : string) : WriteOnlyOwner :=
  mkWriteOnlyOwner v true.
Definition isSecretSet (o : WriteOnlyOwner) : bool := secretSet_ o.

(** [PointerOwner] of property_test.cpp. *)
Record PointerOwner := mkPointerOwner { ptr_ : Z }.
Definition setPtr (o : PointerOwner) (v : Z) : PointerOwner := mkPointerOwner v.

(** [++obj.prop; --obj.prop;] followed by a read, through the proxy each
    prefix operator returns. *)
Definition inc_then_dec {O T : Type} (Getter : O -> T) (Setter : O -> T -> O) (offset : Z)
    (incr decr : T -> option T) (h : heap (Owner:=O)) (this : addr) : option T :=
  match pre_inc Getter Setter offset incr h this with
  | Some (h1, p1) =>
      match pre_dec Getter Setter offset decr h1 p1 with
      | Some (h2, p2) => get Getter offset h2 p2
      | None => None
      end
  | None => None
  end.

End Property.

(** ** The value box [attr::attr<T>] of attr.hpp *)
Module Attr.

(** [touka::detail::EXCEPTIONS_ENABLED] and [touka::detail::ASSERT_ENABLED]
    (both [true] in the shipped header). *)
Record config := mkConfig { EXCEPTIONS_ENABLED : bool; ASSERT_ENABLED : bool }.

Definition shipped_config : config := mkConfig true true.

(** Result of reading the box through a conversion operator. *)
Inductive access_result (A : Type) :=
| Value (x : A)
| Indeterminate          (* the bytes of storage that holds no object *)
| Thrown_bad_attr_access (* [throw bad_attr_access()] *)
| Aborted (diag : string) (* [std::printf(...); std::abort();] *)
| Ill_formed.            (* the instantiated body does not compile *)
Arguments Value {A} x.
Arguments Indeterminate {A}.
Arguments Thrown_bad_attr_access {A}.
Arguments Aborted {A} diag.
Arguments Ill_formed {A}.

(** The four conversion operators. *)
Inductive conversion :=
| to_ref          (* operator T&() & *)
| to_rvalue_ref   (* operator T&&() && *)
| to_const_ref    (* operator const T&() const & *)
| to_const_rvalue (* operator const T&&() const && *).

Section Box.
Context {T : Type}.
(** What [std::move] leaves in a moved-from [T]. *)
Variable moved_from : T -> T.
(** Selects the [attr_storage<TriviallyDestructible T>] specialisation,
    whose [destruct_value] and destructor do nothing. *)
Variable is_trivially_destructible : bool.

(** The aligned storage [val]: no object, or a live [T]. *)
Inductive slot := Dead | Live (v : T).

Record attr := mk_attr { engaged : bool; val : slot }.

(** Observable calls of [T]'s special members. *)
Inductive event :=
| Construct (v : T)
| Destroy (v : T)
| Assign (old new : T).

(** The trace of [T]'s special member calls, and the [int] objects that
    pointer-valued boxes designate. *)
Record world := mk_world { trace : list event; mem : Z -> Z }.

(** A state and undefined-behaviour monad over [world]. *)
Definition M (A : Type) := world -> option (A * world).
Definition ret {A} (x : A) : M A := fun w => Some (x, w).
Definition bind {A B} (m : M A) (k : A -> M B) : M B :=
  fun w => match m w with Some (x, w') => k x w' | None => None end.
Definition ub {A} : M A := fun _ => None.
Definition emit (e : event) : M unit :=
  fun w => Some (tt, mk_world (trace w ++ [e]) (mem w)).

Local Notation "x <- m ;; k" := (bind m (fun x => k))
  (at level 61, m at next level, right associativity).

(** [*pOtherValue]: reading storage that must hold a live [T]. *)
Definition get_live (s : slot) : M T :=
  match s with Live v => ret v | Dead => ub end.

(** [construct_value]: [::new(std::addressof(val)) value_type(...)]. *)
Definition construct_value (v : T) : M slot :=
  _ <- emit (Construct v) ;; ret (Live v).

(** [destruct_value]: [~value_type()] on the storage, or nothing in the
    trivially destructible specialisation. *)
Definition destruct_value (s : slot) : M slot :=
  if is_trivially_destructible then ret Dead
  else match s with
       | Live v => _ <- emit (Destroy v) ;; ret Dead
       | Dead => ub
       end.

(** [*get_value_address() = u] on an engaged box. *)
Definition assign_value (s : slot) (u : T) : M slot :=
  match s with
  | Live old => _ <- emit (Assign old u) ;; ret (Live u)
  | Dead => ub
  end.

(** [constexpr attr() noexcept = default;] ([bool engaged = false;]). *)
Definition attr_default : attr := mk_attr false Dead.

(** [explicit attr(const value_type& value) : BaseType(value)]. *)
Definition attr_of_value (v : T) : M attr :=
  s <- construct_value v ;; ret (mk_attr true s).

(** [attr(const attr& other)]. *)
Definition copy_construct (other : attr) : M attr :=
  if engaged other then
    v <- get_live (val other) ;; s <- construct_value v ;; ret (mk_attr true s)
  else ret (mk_attr false Dead).

(** [attr(attr&& other)]: the new box, and [other] after the move. *)
Definition move_construct (other : attr) : M (attr * attr) :=
  if engaged other then
    v <- get_live (val other) ;; s <- construct_value v ;;
    ret (mk_attr true s, mk_attr true (Live (moved_from v)))
  else ret (mk_attr false Dead, other).

(** [attr& operator=(const attr& other)]. *)
Definition copy_assign (this other : attr) : M attr :=
  if Bool.eqb (engaged this) (engaged other) then
    if engaged this then
      v <- get_live (val other) ;; s <- assign_value (val this) v ;;
      ret (mk_attr true s)
    else ret this
  else if engaged this then
    s <- destruct_value (val this) ;; ret (mk_attr false s)
  else
    v <- get_live (val other) ;; s <- construct_value v ;; ret (mk_attr true s).

(** [attr& operator=(attr&& other)]: [this] and [other] afterwards. *)
Definition move_assign (this other : attr) : M (attr * attr) :=
  if Bool.eqb (engaged this) (engaged other) then
    if engaged this then
      v <- get_live (val other) ;; s <- assign_value (val this) v ;;
      ret (mk_attr true s, mk_attr true (Live (moved_from v)))
    else ret (this, other)
  else if engaged this then
    s <- destruct_value (val this) ;; ret (mk_attr false s, other)
  else
    v <- get_live (val other) ;; s <- construct_value v ;;
    ret (mk_attr true s, mk_attr true (Live (moved_from v))).

(** [template<class U> attr& operator=(U&& u)] with [decay_t<U> = T]. *)
Definition value_assign (this : attr) (u : T) : M attr :=
  if engaged this then
    s <- assign_value (val this) u ;; ret (mk_attr true s)
  else
    s <- construct_value u ;; ret (mk_attr true s).

(** [void reset()]. *)
Definition reset (this : attr) : M attr :=
  if engaged this then
    s <- destruct_value (val this) ;; ret (mk_attr false s)
  else ret this.

(** [~attr_storage()]: [if (engaged) destruct_value();], or [= default]
    in the trivially destructible specialisation. *)
Definition destroy (this : attr) : M unit :=
  if is_trivially_destructible then ret tt
  else if engaged this then (_ <- destruct_value (val this) ;; ret tt)
  else ret tt.

(** [swap( **this, *other)] needs [attr] to have a unary [*], which it
    has not; the expression only resolves when [T] itself converts to a
    pointer (built-in [*] on the result of [operator T&]), and then it
    swaps the two pointees.  [None]: the expression is ill-formed for [T]. *)
Variable star_swap : option (T -> T -> M unit).

(** [void swap(attr& other)]: [None] when the body does not compile for
    [T] (the whole member is then unusable); otherwise [this] and
    [other] afterwards. *)
Definition swap : option (attr -> attr -> M (attr * attr)) :=
  match star_swap with
  | None => None
  | Some sw => Some (fun this other =>
      if Bool.eqb (engaged this) (engaged other) then
        if engaged this then
          x <- get_live (val this) ;; y <- get_live (val other) ;;
          _ <- sw x y ;; ret (this, other)
        else ret (this, other)
      else if engaged this then
        v <- get_live (val this) ;;
        so <- construct_value v ;;
        st <- destruct_value (Live (moved_from v)) ;;
        ret (mk_attr (engaged other) st, mk_attr (engaged this) so)
      else
        v <- get_live (val other) ;;
        st <- construct_value v ;;
        so <- destruct_value (Live (moved_from v)) ;;
        ret (mk_attr (engaged other) st, mk_attr (engaged this) so))
  end.

(** Reading the storage without a check: [*std::bit_cast<value_type*>(...)]. *)
Definition storage_read (s : slot) : access_result T :=
  match s with Live v => Value v | Dead => Indeterminate end.

Definition no_value_diag : string := "no value to retrieve".

(** [touka::assert_msg(engaged, "no value to retrieve")] followed by the read. *)
Definition asserted_read (cfg : config) (a : attr) : access_result T :=
  if ASSERT_ENABLED cfg then
    if engaged a then storage_read (val a) else Aborted no_value_diag
  else storage_read (val a).

(** [value_type& get_value_ref()]: with exceptions the unconstrained
    overload; without them the overload [requires (!EXCEPTIONS_ENABLED)],
    whose [assert_msg(engaged && "no value to retrieve")] passes one
    argument to a function taking a condition and a message. *)
Definition get_value_ref (cfg : config) (a : attr) : access_result T :=
  if EXCEPTIONS_ENABLED cfg then
    if engaged a then storage_read (val a) else Thrown_bad_attr_access
  else if ASSERT_ENABLED cfg then Ill_formed
  else storage_read (val a).

(** [const value_type& get_value_ref() const] (both overloads). *)
Definition get_value_ref_const (cfg : config) (a : attr) : access_result T :=
  if EXCEPTIONS_ENABLED cfg then
    if engaged a then storage_read (val a) else Thrown_bad_attr_access
  else asserted_read cfg a.

Definition convert (cfg : config) (op : conversion) (a : attr) : access_result T :=
  match op with
  | to_ref | to_rvalue_ref => get_value_ref cfg a
  | to_const_ref | to_const_rvalue => get_value_ref_const cfg a
  end.

(** [constexpr bool operator==(const T& value) const
      { return static_cast<bool>( *this) && *this == value; }]:
    [*this == value] resolves to this same member (exact match, not a
    rewritten candidate), so the call recurses on its own arguments.
    [fuel] bounds the recursion depth; [None]: no result within it. *)
Fixpoint eq_value (fuel : nat) (this : attr) (value : T) : option bool :=
  match fuel with
  | O => None
  | S fuel' => if engaged this then eq_value fuel' this value else Some false
  end.

(** [constexpr auto operator<=>(const T& value) const
      { return static_cast<bool>( *this) ? *this <=> value : std::strong_ordering::less; }]:
    as in [eq_value], [*this <=> value] selects this same member, but here
    the return type is the placeholder [auto], to be deduced from this
    only return statement.  The call names the function before its return
    type is deduced, so the body is ill-formed ([dcl.spec.auto.general])
    whatever the box and the value: no comparison result exists. *)
Definition cmp_value (this : attr) (value : T) : access_result comparison := Ill_formed.

(** The engaged flag is true exactly when the storage holds a live [T]. *)
Definition inv (a : attr) : Prop :=
  match engaged a, val a with
  | true, Live _ => True
  | false, Dead => True
  | _, _ => False
  end.

(** [T]'s [==] and [<=>]. *)
Variable T_eqb : T -> T -> bool.
Variable T_compare : T -> T -> comparison.
(** [static_cast<T>( *this)]: [T]'s copy constructor applied to the value
    the const conversion operator reads; [None] when [T] is not
    copy-constructible (e.g. [std::atomic<int>]), which makes the
    expression ill-formed. *)
Variable T_copy : option (T -> T).




(** Constructor and destructor calls of [T] in a trace. *)
Fixpoint constructs (tr : list event) : nat :=
  match tr with
  | [] => 0%nat
  | Construct _ :: r => S (constructs r)
  | _ :: r => constructs r
  end.

Fixpoint destroys (tr : list event) : nat :=
  match tr with
  | [] => 0%nat
  | Destroy _ :: r => S (destroys r)
  | _ :: r => destroys r
  end.

(** Objects a trace has created and not destroyed. *)
Definition net_live (tr : list event) : Z :=
  Z.of_nat (constructs tr) - Z.of_nat (destroys tr).

(** 1 for an engaged box. *)
Definition live (a : attr) : Z := if engaged a then 1 else 0.

(** Whether copying the value [v] throws, in [value_type(v)] or in
    [x = v] (for instance [std::bad_alloc] from [std::string]'s copy). *)
Variable copy_throws : T -> bool.

(** [construct_value(v)] when the constructor may throw: [None] when it
    throws (the storage then holds no object). *)
Definition construct_value_x (v : T) : M (option slot) :=
  if copy_throws v then ret None
  else s <- construct_value v ;; ret (Some s).

(** [*get_value_address() = u] when [T]'s assignment may throw; a throwing
    assignment leaves the old value in place. *)
Definition assign_value_x (s : slot) (u : T) : M (option slot) :=
  match s with
  | Live _ => if copy_throws u then ret None else s' <- assign_value s u ;; ret (Some s')
  | Dead => ub
  end.

(** [operator=(U&&)] when [T]'s copy may throw: the box afterwards, and
    whether an exception leaves the call.  On a disengaged box
    [engaged = true;] runs before [construct_value]. *)
Definition value_assign_x (this : attr) (u : T) : M (attr * bool) :=
  if engaged this then
    r <- assign_value_x (val this) u ;;
    match r with
    | Some s => ret (mk_attr true s, false)
    | None => ret (this, true)
    end
  else
    r <- construct_value_x u ;;
    match r with
    | Some s => ret (mk_attr true s, false)
    | None => ret (mk_attr true (val this), true)
    end.

(** [attr(const attr& other) : BaseType()] when [T]'s copy may throw:
    [engaged = other.engaged;] runs before the placement new; when that
    throws, the already constructed base [attr_storage] is destroyed
    during stack unwinding, and its destructor sees [engaged] set over
    storage that holds no object.  [Some a]: the new box; [None]: the
    exception propagates. *)
Definition copy_construct_x (other : attr) : M (option attr) :=
  if engaged other then
    v <- get_live (val other) ;;
    r <- construct_value_x v ;;
    match r with
    | Some s => ret (Some (mk_attr true s))
    | None => _ <- destroy (mk_attr true Dead) ;; ret None
    end
  else ret (Some (mk_attr false Dead)).

(** [operator=(const attr&)] when [T]'s copy may throw; here
    [construct_value] runs before [engaged = true;]. *)
Definition copy_assign_x (this other : attr) : M (attr * bool) :=
  if Bool.eqb (engaged this) (engaged other) then
    if engaged this then
      v <- get_live (val other) ;; r <- assign_value_x (val this) v ;;
      match r with
      | Some s => ret (mk_attr true s, false)
      | None => ret (this, true)
      end
    else ret (this, false)
  else if engaged this then
    s <- destruct_value (val this) ;; ret (mk_attr false s, false)
  else
    v <- get_live (val other) ;; r <- construct_value_x v ;;
    match r with
    | Some s => ret (mk_attr true s, false)
    | None => ret (this, true)
    end.

End Box.

Arguments Dead {T}.
Arguments Live {T} v.

(** [T = int*]: [**this] and [*other] designate the pointees in [mem]. *)
Definition swap_pointees (p q : Z) : M (T:=Z) unit :=
  fun w => Some (tt, mk_world (trace w)
                   (fun a => if Z.eqb a p then mem w q
                             else if Z.eqb a q then mem w p else mem w a)).

(** Two [int] objects: [x = 10] at address 1 and [y = 20] at address 2. *)
Definition pointee_world : world (T:=Z) :=
  mk_world [] (fun a => if Z.eqb a 1 then 10 else if Z.eqb a 2 then 20 else 0).

End Attr.

(** * Properties *)

Module PropertyFacts.
Import Property.

Lemma GetOwner_of_field (offset A : Z) : GetOwner offset (A + offset) = A.
Proof. unfold GetOwner; lia. Qed.

Lemma heap_upd_same {O} (h : heap (Owner:=O)) a o : heap_upd h a o a = Some o.
Proof. unfold heap_upd; rewrite Z.eqb_refl; reflexivity. Qed.

Lemma heap_upd_other {O} (h : heap (Owner:=O)) a b o :
  b <> a -> heap_upd h a o b = h b.
Proof. intro Hne; unfold heap_upd; apply Z.eqb_neq in Hne; rewrite Hne; reflexivity. Qed.

Example validated_clamp_example :
  match assign ValidatedOwner_setValue validated_offset (validated_heap 0) 1004 95 with
  | Some (h1, p) =>
      match compound ValidatedOwner_getValue ValidatedOwner_setValue validated_offset int_binop AddAssign h1 p 50 with
      | Some (h2, p2) => get ValidatedOwner_getValue validated_offset h2 p2
      | None => None
      end
  | None => None
  end = Some 100.
Proof. reflexivity. Qed.

Lemma copy_constructible_with_property (subs : list CopyRules.cls) :
  In CopyRules.property_t subs ->
  CopyRules.copy_constructible (CopyRules.Class None subs) = false.
Proof.
  induction subs as [|x r IH]; simpl; [tauto|].
  intros [-> | Hin].
  - reflexivity.
  - simpl in IH; rewrite (IH Hin); apply andb_false_r.
Qed.

(** C1 (counterexample): [BasicOwner] of property_test.cpp, which declares
    a TOUKA_PROPERTY field, is not copy-constructible, so [O b = a;] does
    not compile for it. *)
Lemma C1_basic_owner_not_copyable :
  CopyRules.copy_constructible CopyRules.BasicOwner = false.
Proof. reflexivity. Qed.

(** C1 (amended): an owner type whose own copy constructor is implicit is
    not copy-constructible as soon as it has a TOUKA_PROPERTY field (the
    proxy's base deletes its copy constructor).  An owner that writes its
    own copy constructor, copying the backing members, gets an independent
    copy: after [a.prop = v1; O b = a; b.prop = v2;] the proxy of [a]
    resolves to [a] and reads the value [a] stored, the proxy of [b]
    resolves to [b] and reads the value [b] stored. *)
Theorem C1_owner_copy :
  (forall subs, In CopyRules.property_t subs ->
     CopyRules.copy_constructible (CopyRules.Class None subs) = false) /\
  (forall (O T : Type) (Getter : O -> T) (Setter : O -> T -> O) offset
          (h : heap) (A B : addr) (o : O) (v1 v2 : T),
     A <> B -> h A = Some o ->
     copy_scenario Getter Setter offset h A B v1 v2 =
     Some (Some (Getter (Setter o v1)), Some (Getter (Setter (Setter o v1) v2)))).
Proof.
  split; [exact copy_constructible_with_property|].
  intros O T Getter Setter offset h A B o v1 v2 Hne HA.
  unfold copy_scenario, assign, owner_copy_construct, get.
  rewrite !GetOwner_of_field, HA, heap_upd_same, heap_upd_same.
  rewrite heap_upd_same, heap_upd_other by exact Hne.
  rewrite heap_upd_other by exact Hne.
  rewrite heap_upd_same; reflexivity.
Qed.

(** C2: for an owner [o] at [A] and a value [v] its setter stores
    unmodified ([Getter (Setter o v) = v]), [o.prop = v] followed by
    [o.prop.get()] yields [v]. *)
Theorem C2_assign_then_get {O T : Type} (Getter : O -> T) (Setter : O -> T -> O)
    (offset : Z) (h : heap) (A : addr) (o : O) (v : T)
    (Howner : h A = Some o) (Hdomain : Getter (Setter o v) = v) :
  exists h', assign Setter offset h (A + offset) v = Some (h', A + offset) /\
             get Getter offset h' (A + offset) = Some v.
Proof.
  unfold assign, get; rewrite GetOwner_of_field, Howner.
  eexists; split; [reflexivity|].
  rewrite heap_upd_same, Hdomain; reflexivity.
Qed.

Lemma C2_assign_then_get_witness :
  exists h', assign ValidatedOwner_setValue validated_offset (validated_heap 0)
               (1000 + validated_offset) 42 = Some (h', 1000 + validated_offset) /\
             get ValidatedOwner_getValue validated_offset h' (1000 + validated_offset)
             = Some 42.
Proof.
  apply (C2_assign_then_get ValidatedOwner_getValue ValidatedOwner_setValue
           validated_offset (validated_heap 0) 1000 (mkValidatedOwner 0) 42);
    reflexivity.
Defined.

(** C3: every compound assignment [prop op= d] is [prop = (prop.get() op d)]:
    it reads through the getter, applies the value type's operator (undefined
    behaviour where that operator is) and writes the result through the
    setter, returning the proxy.  So with the clamping setter of
    [ValidatedOwner] (value [x] in [0, 100], operand [d] an [int]) the value
    read afterwards is the clamped [int] result of [x op d];
    [value = 95; value += 50;] reads 100, while [value += INT_MAX] from 95
    overflows [int]. *)
Theorem C3_compound_read_modify_write :
  (forall (O T : Type) (Getter : O -> T) (Setter : O -> T -> O) offset
          (binop : compound_op -> T -> T -> option T) op h this v,
     compound Getter Setter offset binop op h this v =
     match get Getter offset h this with
     | Some g =>
         match binop op g v with
         | Some r => assign Setter offset h this r
         | None => None
         end
     | None => None
     end) /\
  (forall op x d, 0 <= x <= 100 -> int_in_range d = true ->
     match compound ValidatedOwner_getValue ValidatedOwner_setValue validated_offset
             int_binop op (validated_heap x) 1004 d with
     | Some (h', p) => exists r, int_binop op x d = Some r /\
         get ValidatedOwner_getValue validated_offset h' p = Some (Z.max 0 (Z.min 100 r))
     | None => int_binop op x d = None
     end) /\
  (match assign ValidatedOwner_setValue validated_offset (validated_heap 0) 1004 95 with
   | Some (h1, p) =>
       match compound ValidatedOwner_getValue ValidatedOwner_setValue validated_offset
               int_binop AddAssign h1 p 50 with
       | Some (h2, p2) => get ValidatedOwner_getValue validated_offset h2 p2
       | None => None
       end
   | None => None
   end = Some 100) /\
  (compound ValidatedOwner_getValue ValidatedOwner_setValue validated_offset
     int_binop AddAssign (validated_heap 95) 1004 INT_MAX = None).
Proof.
  split.
  { intros O T Getter Setter offset binop op h this v.
    unfold compound, invoke_getter, get, set, assign.
    destruct (h (GetOwner offset this)); [|reflexivity].
    destruct (binop op _ v); reflexivity. }
  split; [|split; reflexivity].
  intros op x d Hx Hd.
  cbv [compound invoke_getter set get validated_heap validated_offset GetOwner heap_upd].
  change (1004 - 4) with 1000; rewrite Z.eqb_refl; cbn iota beta zeta.
  cbv [ValidatedOwner_getValue ValidatedOwner_value_].
  destruct (int_binop op x d) as [r|]; [|reflexivity].
  cbn iota beta zeta; rewrite Z.eqb_refl.
  exists r; split; [reflexivity|].
  cbv [ValidatedOwner_setValue ValidatedOwner_value_]; f_equal.
  destruct (Z.ltb_spec r 0);
    [destruct (Z.gtb_spec 0 100) | destruct (Z.gtb_spec r 100)]; lia.
Qed.

(** C9: prefix [++]/[--] read through the getter, apply the value type's
    [++]/[--] to that copy, write it back through the setter and return
    the proxy itself; postfix [++]/[--] do the same write and return the
    value read before it. *)
Theorem C9_increment_decrement {O T : Type} (Getter : O -> T) (Setter : O -> T -> O)
    (offset : Z) (incr decr : T -> option T) (h : heap) (this : addr) :
  pre_inc Getter Setter offset incr h this =
    match get Getter offset h this with
    | Some g => match incr g with
                | Some g' => match set Setter offset h this g' with
                             | Some h' => Some (h', this) | None => None end
                | None => None end
    | None => None
    end /\
  post_inc Getter Setter offset incr h this =
    match get Getter offset h this with
    | Some g => match incr g with
                | Some g' => match set Setter offset h this g' with
                             | Some h' => Some (h', g) | None => None end
                | None => None end
    | None => None
    end /\
  pre_dec Getter Setter offset decr h this =
    match get Getter offset h this with
    | Some g => match decr g with
                | Some g' => match set Setter offset h this g' with
                             | Some h' => Some (h', this) | None => None end
                | None => None end
    | None => None
    end /\
  post_dec Getter Setter offset decr h this =
    match get Getter offset h this with
    | Some g => match decr g with
                | Some g' => match set Setter offset h this g' with
                             | Some h' => Some (h', g) | None => None end
                | None => None end
    | None => None
    end.
Proof. repeat split. Qed.


Example vector_subscript_example :
  subscript VectorOwner_getData 0 vector_index
    (fun a => if Z.eqb a 0 then Some (mkVectorOwner [10; 20; 30]) else None) 0 1%nat
  = Some 20.
Proof. reflexivity. Qed.

End PropertyFacts.

Module AttrFacts.
Import Attr.

(** Unfolds the monad and the box operations, then splits on the boxes'
    flags and storage and on the boolean tests. *)
Ltac box_simpl :=
  cbv [inv bind ret ub emit get_live construct_value destruct_value assign_value
       attr_default attr_of_value copy_construct move_construct copy_assign
       move_assign value_assign reset destroy swap] in *;
  simpl in *.

Ltac box_cases :=
  repeat match goal with
         | a : attr |- _ => destruct a as [[|] [|]]
         | b : bool |- _ => destruct b
         end;
  box_simpl.

Ltac box_finish :=
  repeat match goal with
         | H : Some _ = Some _ |- _ => inversion H; clear H; subst
         | H : None = Some _ |- _ => discriminate H
         | H : false = true |- _ => discriminate H
         | H : true = false |- _ => discriminate H
         | H : False |- _ => destruct H
         end;
  simpl in *; auto.

(** C4 (the code): on an engaged box, [a == v] calls itself on the same
    arguments, so no recursion depth produces a result (a disengaged box
    answers [false] at once); [a <=> v] is ill-formed for every box and
    value, so it yields no ordering at all. *)
Theorem C4_compare_engaged_diverges {T : Type} (fuel : nat) (x value : T) :
  eq_value fuel (mk_attr true (Live x)) value = None /\
  eq_value (S fuel) (mk_attr false Dead) value = Some false /\
  (forall a : attr (T:=T), cmp_value a value = Ill_formed).
Proof.
  split; [|split; [reflexivity | reflexivity]].
  induction fuel as [|n IH]; simpl; [reflexivity | exact IH].
Qed.

(** C5 (counterexample): with both EXCEPTIONS_ENABLED and ASSERT_ENABLED
    turned off, reading a default-constructed box through
    [operator const T&] performs no check and returns the uninitialised
    storage: neither an exception nor an abort. *)
Lemma C5_unchecked_read_when_checks_disabled :
  convert (mkConfig false false) to_const_ref (@attr_default Z) = Indeterminate.
Proof. reflexivity. Qed.

(** C5 (amended): on a disengaged box, with exceptions enabled (the
    shipped configuration) every conversion operator throws
    bad_attr_access; with exceptions disabled and assertions enabled the
    const-qualified conversion operators abort with the diagnostic
    "no value to retrieve"; with both disabled no check is made and the
    read returns the storage, which holds no object.  Reading is a pure
    function of the box, so the box is unchanged in every case. *)
Theorem C5_disengaged_access {T : Type} :
  (forall asserts op (a : attr (T:=T)), engaged a = false ->
     convert (mkConfig true asserts) op a = Thrown_bad_attr_access) /\
  (forall op (a : attr (T:=T)), engaged a = false ->
     convert shipped_config op a = Thrown_bad_attr_access) /\
  (forall (a : attr (T:=T)), engaged a = false ->
     convert (mkConfig false true) to_const_ref a = Aborted no_value_diag /\
     convert (mkConfig false true) to_const_rvalue a = Aborted no_value_diag) /\
  (forall op (a : attr (T:=T)), inv a -> engaged a = false ->
     convert (mkConfig false false) op a = Indeterminate).
Proof.
  repeat split; intros; box_cases; try discriminate; try contradiction; try reflexivity;
    match goal with op : conversion |- _ => destruct op; reflexivity end.
Qed.

(** C6 (the code): [attr<int>] has no [swap] that compiles ([**this] needs
    a unary [*] on [attr]); with [T = int*], [a] holding [&x] (address 1,
    [x = 10]) and [b] holding [&y] (address 2, [y = 20]), both engaged,
    [a.swap(b)] leaves [a] holding [&x] and [b] holding [&y] and exchanges
    [x] and [y] instead. *)
Theorem C6_swap_engaged_pair_swaps_pointees :
  @swap Z (fun v => v) true None = None /\
  match @swap Z (fun v => v) true (Some swap_pointees) with
  | Some f =>
      match f (mk_attr true (Live 1)) (mk_attr true (Live 2)) pointee_world with
      | Some ((a', b'), w') =>
          a' = mk_attr true (Live 1) /\ b' = mk_attr true (Live 2) /\
          mem w' 1 = 20 /\ mem w' 2 = 10
      | None => False
      end
  | None => False
  end.
Proof. split; [reflexivity|]. cbv; repeat split. Qed.

(** C7: a default box is disengaged; assigning a [T] engages it; [reset]
    on an engaged box (non-trivially destructible [T]) runs the value's
    destructor exactly once and disengages it; [reset] on a disengaged box
    changes nothing, so a second [reset] changes nothing. *)
Theorem C7_reset_lifecycle {T : Type} :
  engaged (@attr_default T) = false /\
  (forall (a : attr) (v : T) w a' w', value_assign a v w = Some (a', w') ->
     engaged a' = true) /\
  (forall (v : T) w, reset false (mk_attr true (Live v)) w =
     Some (mk_attr false Dead, mk_world (trace w ++ [Destroy v]) (mem w))) /\
  (forall triv (a : attr (T:=T)) w, engaged a = false -> reset triv a w = Some (a, w)) /\
  (forall triv (a : attr (T:=T)) w a' w', reset triv a w = Some (a', w') ->
     reset triv a' w' = Some (a', w')).
Proof.
  split; [reflexivity|]. split.
  { intros a v w a' w' H; destruct a as [[|] [|]]; box_simpl; box_finish. }
  split; [reflexivity|]. split.
  { intros triv a w H; destruct a as [[|] [|]]; box_simpl; box_finish. }
  intros triv a w a' w' H; destruct a as [[|] [|]]; destruct triv; box_simpl; box_finish.
Qed.


(** C8 (the code): when copying a [T] value throws, [operator=(U&&)] on a
    disengaged box has already set [engaged]: the exception leaves the box
    engaged over storage holding no object, and the box's destructor then
    destroys that non-object (undefined behaviour).  The copy constructor
    likewise sets [engaged] first, so when the copy throws, unwinding runs
    [~attr_storage] on the dead storage (undefined behaviour for a
    non-trivially destructible [T]).  The copy assignment, which sets
    [engaged] only after [construct_value], keeps the invariant whether or
    not the copy throws. *)
Theorem C8_throwing_copy_breaks_invariant {T : Type} (copy_throws : T -> bool) :
  (forall (u : T) w, copy_throws u = true ->
     value_assign_x copy_throws (mk_attr false Dead) u w = Some ((mk_attr true Dead, true), w) /\
     ~ inv (mk_attr true (@Dead T)) /\
     destroy false (mk_attr true (@Dead T)) w = None) /\
  (forall (v : T) w, copy_throws v = true ->
     copy_construct_x false copy_throws (mk_attr true (Live v)) w = None) /\
  (forall triv (t o : attr (T:=T)) w t' thrown w', inv t -> inv o ->
     copy_assign_x triv copy_throws t o w = Some ((t', thrown), w') -> inv t').
Proof.
  split.
  { intros u w Hu; cbv [value_assign_x construct_value_x bind ret]; simpl.
    rewrite Hu; split; [reflexivity|]. split; [intros []|reflexivity]. }
  split.
  { intros v w Hv; cbv [copy_construct_x construct_value_x bind ret get_live]; simpl.
    rewrite Hv; reflexivity. }
  intros triv t o w t' thrown w' Ht Ho H.
  destruct t as [[|] [|]]; destruct o as [[|] [|]]; destruct triv;
    cbv [copy_assign_x construct_value_x assign_value_x] in H; box_simpl;
    repeat match goal with
           | H : context [copy_throws ?v] |- _ => destruct (copy_throws v)
           end; box_finish.
Qed.

End AttrFacts.

Module PropertyExtras.
Import Property PropertyFacts.

Lemma run_write_setter {O T : Type} (Getter : O -> T) (Setter : O -> T -> O) (offset : Z)
    (binop : compound_op -> T -> T -> option T) (incr decr : T -> option T)
    (w : write_op T) (h : heap) (this : addr) :
  match run_write Getter Setter offset binop incr decr w h this with
  | Some h' => exists o v, h (GetOwner offset this) = Some o /\
                           write_value binop incr decr w (Getter o) = Some v /\
                           h' = heap_upd h (GetOwner offset this) (Setter o v)
  | None => h (GetOwner offset this) = None \/
            exists o, h (GetOwner offset this) = Some o /\
                      write_value binop incr decr w (Getter o) = None
  end.
Proof.
  destruct w; cbv [run_write write_value assign set compound pre_inc post_inc pre_dec
                   post_dec invoke_getter option_map fst];
    destruct (h (GetOwner offset this)) as [o|] eqn:E; eauto;
    try match goal with
        | |- context [binop ?a ?b ?c] => destruct (binop a b c) eqn:?
        | |- context [incr ?x] => destruct (incr x) eqn:?
        | |- context [decr ?x] => destruct (decr x) eqn:?
        end;
    simpl; eauto 6.
Qed.

Lemma ValidatedOwner_setValue_range (o : ValidatedOwner) (v : Z) :
  0 <= ValidatedOwner_value_ (ValidatedOwner_setValue o v) <= 100.
Proof.
  unfold ValidatedOwner_setValue; simpl.
  destruct (Z.ltb_spec v 0); [destruct (Z.gtb_spec 0 100) | destruct (Z.gtb_spec v 100)]; lia.
Qed.


(** Whatever mutating operation is applied to [ValidatedOwner::value], the
    stored value afterwards lies in [0, 100]: no proxy operation bypasses
    the clamping setter. *)
Theorem validated_value_stays_in_range (w : write_op Z) (h : heap) (A : addr) :
  match run_write ValidatedOwner_getValue ValidatedOwner_setValue validated_offset
          int_binop int_incr int_decr w h (A + validated_offset) with
  | Some h' => exists o, h' A = Some o /\ 0 <= ValidatedOwner_value_ o <= 100
  | None => True
  end.
Proof.
  pose proof (run_write_setter ValidatedOwner_getValue ValidatedOwner_setValue validated_offset
                int_binop int_incr int_decr w h (A + validated_offset)) as H.
  destruct (run_write _ _ _ _ _ _ w h _); [|exact I].
  destruct H as (o & v & _ & _ & ->).
  rewrite GetOwner_of_field, heap_upd_same.
  eexists; split; [reflexivity|apply ValidatedOwner_setValue_range].
Qed.

(** A mutating operation on the property of the owner at [A] leaves what
    the same property reads on any other owner [B] unchanged. *)
Theorem write_leaves_other_owners {O T : Type} (Getter : O -> T) (Setter : O -> T -> O)
    (offset : Z) (binop : compound_op -> T -> T -> option T) (incr decr : T -> option T)
    (w : write_op T) (h : heap) (A B : addr) (Hne : A <> B) :
  match run_write Getter Setter offset binop incr decr w h (A + offset) with
  | Some h' => get Getter offset h' (B + offset) = get Getter offset h (B + offset)
  | None => True
  end.
Proof.
  pose proof (run_write_setter Getter Setter offset binop incr decr w h (A + offset)) as H.
  destruct (run_write _ _ _ _ _ _ w h _); [|exact I].
  destruct H as (o & v & _ & _ & ->).
  unfold get; rewrite !GetOwner_of_field, heap_upd_other by congruence; reflexivity.
Qed.

Lemma write_leaves_other_owners_witness :
  match run_write BasicOwner_getValue BasicOwner_setValue 0 int_binop int_incr int_decr
          (WCompound AddAssign 5)
          (fun a => if Z.eqb a 0 then Some (mkBasicOwner 1)
                    else if Z.eqb a 8 then Some (mkBasicOwner 2) else None) (0 + 0) with
  | Some h' => get BasicOwner_getValue 0 h' (8 + 0) =
               get BasicOwner_getValue 0
                 (fun a => if Z.eqb a 0 then Some (mkBasicOwner 1)
                           else if Z.eqb a 8 then Some (mkBasicOwner 2) else None) (8 + 0)
  | None => True
  end.
Proof.
  apply (write_leaves_other_owners BasicOwner_getValue BasicOwner_setValue 0 int_binop
           int_incr int_decr (WCompound AddAssign 5) _ 0 8); lia.
Defined.

(** Two properties of one owner: when the setter of the first leaves the
    getter of the second unchanged (as [setX] leaves [getY] of
    [MultiPropertyOwner]), any mutating operation through the first proxy
    leaves what the second proxy of the same owner reads unchanged, although
    both resolve to the same owner object. *)
Theorem write_leaves_sibling_property {O T U : Type}
    (Getter1 : O -> T) (Setter1 : O -> T -> O) (offset1 : Z)
    (Getter2 : O -> U) (offset2 : Z)
    (binop : compound_op -> T -> T -> option T) (incr decr : T -> option T)
    (Hframe : forall o v, Getter2 (Setter1 o v) = Getter2 o)
    (w : write_op T) (h : heap) (A : addr) :
  match run_write Getter1 Setter1 offset1 binop incr decr w h (A + offset1) with
  | Some h' => get Getter2 offset2 h' (A + offset2) = get Getter2 offset2 h (A + offset2)
  | None => True
  end.
Proof.
  pose proof (run_write_setter Getter1 Setter1 offset1 binop incr decr w h (A + offset1)) as H.
  destruct (run_write _ _ _ _ _ _ w h _); [|exact I].
  destruct H as (o & v & Ho & _ & ->).
  unfold get; rewrite !GetOwner_of_field in *; rewrite heap_upd_same, Ho, Hframe.
  reflexivity.
Qed.

Lemma write_leaves_sibling_property_witness :
  match run_write (@getX bool) (@setX bool) 0 int_binop int_incr int_decr (WAssign 7)
          (fun a => if Z.eqb a 0 then Some (mkMultiPropertyOwner 1 2 true) else None) (0 + 0) with
  | Some h' => get (@getY bool) 4 h' (0 + 4) =
               get (@getY bool) 4
                 (fun a => if Z.eqb a 0 then Some (mkMultiPropertyOwner 1 2 true) else None)
                 (0 + 4)
  | None => True
  end.
Proof.
  apply (write_leaves_sibling_property (@getX bool) (@setX bool) 0 (@getY bool) 4
           int_binop int_incr int_decr).
  intros; reflexivity.
Defined.

(** [++] then [--] through the returned proxy: on a [BasicOwner] holding
    the [int] [x] this restores [x], except at [INT_MAX] where the
    increment overflows; on a [ValidatedOwner] holding [x] in [0, 100] it
    restores [x] for [x < 100], and gives 99 at 100 (the increment is
    clamped back to 100, the decrement then gives 99). *)
Theorem increment_then_decrement (offset : Z) :
  (forall (h : heap) A x, h A = Some (mkBasicOwner x) -> int_in_range x = true ->
     inc_then_dec BasicOwner_getValue BasicOwner_setValue offset int_incr int_decr
       h (A + offset) = if x =? INT_MAX then None else Some x) /\
  (forall (h : heap) A x, h A = Some (mkValidatedOwner x) -> 0 <= x <= 100 ->
     inc_then_dec ValidatedOwner_getValue ValidatedOwner_setValue offset int_incr int_decr
       h (A + offset) = Some (if x =? 100 then 99 else x)).
Proof.
  split.
  - intros h A x HA Hx.
    cbv [inc_then_dec pre_inc pre_dec invoke_getter set get].
    repeat first [rewrite GetOwner_of_field | rewrite HA | rewrite heap_upd_same
                 | progress cbn iota beta zeta].
    cbv [BasicOwner_getValue BasicOwner_setValue BasicOwner_value_ int_incr int_decr
         int_result int_in_range INT_MIN INT_MAX] in *.
    apply andb_true_iff in Hx; destruct Hx as [Hx1 Hx2];
      apply Z.leb_le in Hx1; apply Z.leb_le in Hx2.
    destruct (Z.eqb_spec x (2 ^ 31 - 1)) as [->|Hne].
    + reflexivity.
    + replace ((- 2 ^ 31 <=? x + 1) && (x + 1 <=? 2 ^ 31 - 1)) with true
        by (symmetry; apply andb_true_iff; split; apply Z.leb_le; lia).
      repeat first [rewrite GetOwner_of_field | rewrite heap_upd_same
                   | progress cbn iota beta zeta].
      replace ((- 2 ^ 31 <=? x + 1 - 1) && (x + 1 - 1 <=? 2 ^ 31 - 1)) with true
        by (symmetry; apply andb_true_iff; split; apply Z.leb_le; lia).
      repeat first [rewrite GetOwner_of_field | rewrite heap_upd_same
                   | progress cbn iota beta zeta].
      f_equal; lia.
  - intros h A x HA Hx.
    cbv [inc_then_dec pre_inc pre_dec invoke_getter set get].
    repeat first [rewrite GetOwner_of_field | rewrite HA | rewrite heap_upd_same
                 | progress cbn iota beta zeta].
    cbv [ValidatedOwner_getValue ValidatedOwner_value_ int_incr int_decr int_result].
    replace (int_in_range (x + 1)) with true
      by (symmetry; unfold int_in_range, INT_MIN, INT_MAX;
          apply andb_true_iff; split; apply Z.leb_le; lia).
    repeat first [rewrite GetOwner_of_field | rewrite heap_upd_same
                 | progress cbn iota beta zeta].
    cbv [ValidatedOwner_setValue ValidatedOwner_value_].
    destruct (Z.ltb_spec (x + 1) 0); [lia|].
    destruct (Z.gtb_spec (x + 1) 100).
    + replace x with 100 by lia. change (int_in_range (100 - 1)) with true.
      repeat first [rewrite GetOwner_of_field | rewrite heap_upd_same
                   | progress cbn iota beta zeta].
      reflexivity.
    + replace (int_in_range (x + 1 - 1)) with true
        by (symmetry; unfold int_in_range, INT_MIN, INT_MAX;
            apply andb_true_iff; split; apply Z.leb_le; lia).
      repeat first [rewrite GetOwner_of_field | rewrite heap_upd_same
                   | progress cbn iota beta zeta].
      destruct (Z.ltb_spec (x + 1 - 1) 0); [lia|].
      destruct (Z.gtb_spec (x + 1 - 1) 100); [lia|].
      destruct (Z.eqb_spec x 100); [lia|]. f_equal; lia.
Qed.

(** A write-only property: [obj.secret = s] calls [setSecret] on the owner
    the proxy resolves to, which then holds [s] and reports
    [isSecretSet()], and returns the proxy itself. *)
Theorem write_only_assign_sets_secret (offset : Z) (h : heap) (A : addr)
    (o : WriteOnlyOwner) (s : string) (HA : h A = Some o) :
  match wo_assign setSecret offset h (A + offset) s with
  | Some (h', p) => h' A = Some (mkWriteOnlyOwner s true) /\ p = A + offset /\
                    (forall o', h' A = Some o' -> isSecretSet o' = true)
  | None => False
  end.
Proof.
  unfold wo_assign; rewrite GetOwner_of_field, HA, heap_upd_same.
  split; [reflexivity|]. split; [reflexivity|].
  intros o' [= <-]; reflexivity.
Qed.

Lemma write_only_assign_sets_secret_witness :
  match wo_assign setSecret 8 (fun a => if Z.eqb a 0 then Some (mkWriteOnlyOwner "none"%string false) else None)
          (0 + 8) "hunter2"%string with
  | Some (h', p) => h' 0 = Some (mkWriteOnlyOwner "hunter2"%string true) /\ p = 0 + 8 /\
                    (forall o', h' 0 = Some o' -> isSecretSet o' = true)
  | None => False
  end.
Proof.
  apply (write_only_assign_sets_secret 8 _ 0 (mkWriteOnlyOwner "none"%string false) "hunter2"%string).
  reflexivity.
Defined.



End PropertyExtras.

Module AttrExtras.
Import Attr AttrFacts.

Lemma constructs_app {T} (l1 l2 : list (event (T:=T))) :
  constructs (l1 ++ l2) = (constructs l1 + constructs l2)%nat.
Proof. induction l1 as [|[] r IH]; simpl; rewrite ?IH; reflexivity. Qed.

Lemma destroys_app {T} (l1 l2 : list (event (T:=T))) :
  destroys (l1 ++ l2) = (destroys l1 + destroys l2)%nat.
Proof. induction l1 as [|[] r IH]; simpl; rewrite ?IH; reflexivity. Qed.

Lemma net_live_app {T} (l1 l2 : list (event (T:=T))) :
  net_live (l1 ++ l2) = net_live l1 + net_live l2.
Proof. unfold net_live; rewrite constructs_app, destroys_app; lia. Qed.

Ltac acct := rewrite ?net_live_app; cbv [net_live live]; simpl; lia.

(** Copying: the copy constructor yields a box equal to the source,
    calling [T]'s copy constructor exactly when the source is engaged; copy
    assignment makes the target equal to the source, through [T]'s
    assignment operator when both are engaged, [T]'s destructor (none for a
    trivially destructible [T]) when only the target is, and [T]'s copy
    constructor when only the source is. *)
Theorem copy_makes_equal_box {T : Type} (triv : bool) :
  (forall (o : attr (T:=T)) w, inv o ->
     copy_construct o w =
     Some (o, match val o with
              | Live v => mk_world (trace w ++ [Construct v]) (mem w)
              | Dead => w
              end)) /\
  (forall (t o : attr (T:=T)) w, inv t -> inv o ->
     exists w', copy_assign triv t o w = Some (o, w') /\ mem w' = mem w /\
       trace w' = trace w ++ match val t, val o with
                             | Live x, Live y => [Assign x y]
                             | Live x, Dead => if triv then [] else [Destroy x]
                             | Dead, Live y => [Construct y]
                             | Dead, Dead => []
                             end).
Proof.
  split.
  - intros o w Ho; destruct o as [[|] [|]]; box_simpl; try contradiction; reflexivity.
  - intros t o w Ht Ho; destruct t as [[|] [|]]; destruct o as [[|] [|]]; destruct triv;
      box_simpl; try contradiction; eexists; (split; [reflexivity|]); simpl;
      rewrite ?app_nil_r; auto.
Qed.

(** Moving: move construction and move assignment leave the target equal
    to the source as it was; a source that was engaged stays engaged,
    holding its moved-from value (neither operation disengages it). *)
Theorem move_leaves_source_engaged {T : Type} (moved_from : T -> T) (triv : bool) :
  (forall (o : attr (T:=T)) w, inv o ->
     exists w', move_construct moved_from o w =
       Some ((o, match val o with Live v => mk_attr true (Live (moved_from v)) | Dead => o end), w')) /\
  (forall (t o : attr (T:=T)) w, inv t -> inv o ->
     exists w', move_assign moved_from triv t o w =
       Some ((o, match val o with Live v => mk_attr true (Live (moved_from v)) | Dead => o end), w')).
Proof.
  split.
  - intros o w Ho; destruct o as [[|] [|]]; box_simpl; try contradiction; eexists; reflexivity.
  - intros t o w Ht Ho; destruct t as [[|] [|]]; destruct o as [[|] [|]]; destruct triv;
      box_simpl; try contradiction; eexists; reflexivity.
Qed.

(** [swap] of an engaged and a disengaged box exchanges the two boxes: the
    value is move-constructed into the empty box, and the moved-from
    original is destroyed (no destructor call for a trivially destructible
    [T]). *)
Theorem swap_mixed_exchanges {T : Type} (moved_from : T -> T) (triv : bool)
    (sw : T -> T -> M (T:=T) unit) (t o : attr (T:=T)) (w : world)
    (Ht : inv t) (Ho : inv o) (Hne : engaged t <> engaged o) :
  match swap moved_from triv (Some sw) with
  | Some f =>
      f t o w = Some ((o, t),
        mk_world (trace w ++ match val t, val o with
                             | Live v, _ | _, Live v =>
                                 Construct v :: (if triv then [] else [Destroy (moved_from v)])
                             | Dead, Dead => []
                             end) (mem w))
  | None => False
  end.
Proof.
  destruct t as [[|] [|]]; destruct o as [[|] [|]]; destruct triv; box_simpl;
    try contradiction; try (exfalso; apply Hne; reflexivity);
    rewrite <- ?app_assoc; reflexivity.
Qed.

Lemma swap_mixed_exchanges_witness :
  match swap (fun v : Z => v) false (Some (fun _ _ => ret tt)) with
  | Some f =>
      f (mk_attr true (Live 3)) (mk_attr false Dead) (mk_world [] (fun _ => 0)) =
      Some ((mk_attr false Dead, mk_attr true (Live 3)),
        mk_world ([] ++ match Live 3, @Dead Z with
                        | Live v, _ | _, Live v =>
                            Construct v :: (if false then [] else [Destroy v])
                        | Dead, Dead => []
                        end) (fun _ => 0))
  | None => False
  end.
Proof.
  apply (swap_mixed_exchanges (fun v : Z => v) false (fun _ _ => ret tt)
           (mk_attr true (Live 3)) (mk_attr false Dead) (mk_world [] (fun _ => 0)));
    [exact I | exact I | discriminate].
Defined.

(** Lifetime accounting for a non-trivially destructible [T] whose copy
    and move constructors and assignments do not throw (a throwing copy
    breaks it): across every operation (construction from a value, copy
    and move construction, copy, move and value assignment, [swap]
    wherever it compiles, [reset], the destructor), the number of [T] objects constructed minus those
    destroyed changes by exactly the change in the number of engaged boxes
    involved: no value is leaked and none is destroyed twice. *)
Theorem lifetime_accounting {T : Type} (moved_from : T -> T) :
  (forall (v : T) w a w', attr_of_value v w = Some (a, w') ->
     net_live (trace w') - net_live (trace w) = live a) /\
  (forall (o : attr (T:=T)) w a w', inv o -> copy_construct o w = Some (a, w') ->
     net_live (trace w') - net_live (trace w) = live a) /\
  (forall (o : attr (T:=T)) w a o' w', inv o ->
     move_construct moved_from o w = Some ((a, o'), w') ->
     net_live (trace w') - net_live (trace w) = live a + live o' - live o) /\
  (forall (t o : attr (T:=T)) w t' w', inv t -> inv o ->
     copy_assign false t o w = Some (t', w') ->
     net_live (trace w') - net_live (trace w) = live t' - live t) /\
  (forall (t o : attr (T:=T)) w t' o' w', inv t -> inv o ->
     move_assign moved_from false t o w = Some ((t', o'), w') ->
     net_live (trace w') - net_live (trace w) = live t' + live o' - live t - live o) /\
  (forall (t : attr (T:=T)) u w t' w', inv t -> value_assign t u w = Some (t', w') ->
     net_live (trace w') - net_live (trace w) = live t' - live t) /\
  (forall (t : attr (T:=T)) w t' w', inv t -> reset false t w = Some (t', w') ->
     net_live (trace w') - net_live (trace w) = live t' - live t) /\
  (forall (t : attr (T:=T)) w w', inv t -> destroy false t w = Some (tt, w') ->
     net_live (trace w') - net_live (trace w) = - live t) /\
  (forall sw : T -> T -> M (T:=T) unit,
     (forall x y w, match sw x y w with Some (_, w') => trace w' = trace w | None => True end) ->
     match swap moved_from false (Some sw) with
     | Some f => forall (t o : attr (T:=T)) w t' o' w', inv t -> inv o ->
         f t o w = Some ((t', o'), w') ->
         net_live (trace w') - net_live (trace w) = live t' + live o' - live t - live o
     | None => False
     end).
Proof.
  split; [intros v w a w' H; box_simpl; box_finish; acct|].
  split; [intros o w a w' Ho H; destruct o as [[|] [|]]; box_simpl; box_finish; acct|].
  split; [intros o w a o' w' Ho H; destruct o as [[|] [|]]; box_simpl; box_finish; acct|].
  split; [intros t o w t' w' Ht Ho H; destruct t as [[|] [|]]; destruct o as [[|] [|]];
          box_simpl; box_finish; acct|].
  split; [intros t o w t' o' w' Ht Ho H; destruct t as [[|] [|]]; destruct o as [[|] [|]];
          box_simpl; box_finish; acct|].
  split; [intros t u w t' w' Ht H; destruct t as [[|] [|]]; box_simpl; box_finish; acct|].
  split; [intros t w t' w' Ht H; destruct t as [[|] [|]]; box_simpl; box_finish; acct|].
  split; [intros t w w' Ht H; destruct t as [[|] [|]]; box_simpl; box_finish; acct|].
  intros sw Hsw t o w t' o' w' Ht Ho H.
  destruct t as [[|] [|] ]; destruct o as [[|] [|]]; box_simpl; box_finish; try acct.
  specialize (Hsw v v0 w); destruct (sw v v0 w) as [[[] w1]|]; box_finish.
  rewrite Hsw; cbv [live]; simpl; lia.
Qed.

(** Calling [reset()] before the destructor changes nothing about the
    destructor calls of [T]: [reset(); ~attr()] has exactly the effect of
    [~attr()] alone, for every box and both storage specialisations. *)
Theorem reset_then_destroy {T : Type} (triv : bool) (t : attr (T:=T)) (w : world) :
  bind (reset triv t) (destroy triv) w = destroy triv t w.
Proof. destruct t as [[|] [|]]; destruct triv; box_simpl; reflexivity. Qed.


(** Reading an engaged box: every conversion operator yields the
    contained value, under every configuration except one: with exceptions
    disabled and assertions enabled, the non-const conversions do not
    compile. *)
Theorem engaged_read {T : Type} :
  (forall cfg op (v : T),
     (EXCEPTIONS_ENABLED cfg = true \/ ASSERT_ENABLED cfg = false \/
      op = to_const_ref \/ op = to_const_rvalue) ->
     convert cfg op (mk_attr true (Live v)) = Value v) /\
  (forall op (v : T), (op = to_ref \/ op = to_rvalue_ref) ->
     convert (mkConfig false true) op (mk_attr true (Live v)) = Ill_formed).
Proof.
  split.
  - intros [[|] [|]] op v H; destruct op; simpl in *;
      try reflexivity; intuition discriminate.
  - intros op v [-> | ->]; reflexivity.
Qed.

(** Assigning a [T] to a box: an engaged box uses [T]'s assignment
    operator on its value, a disengaged one copy-constructs [u] into its
    storage exactly as [attr(u)] does; afterwards, in the shipped
    configuration, every conversion operator reads [u]. *)
Theorem value_assign_then_read {T : Type} :
  (forall (t : attr (T:=T)) (u : T) w, inv t ->
     value_assign t u w =
     Some (mk_attr true (Live u),
           mk_world (trace w ++ match val t with
                                | Live old => [Assign old u]
                                | Dead => [Construct u]
                                end) (mem w))) /\
  (forall (t : attr (T:=T)) (u : T), engaged t = false -> inv t ->
     value_assign t u = attr_of_value u) /\
  (forall (t : attr (T:=T)) (u : T) w t' w' op, inv t -> value_assign t u w = Some (t', w') ->
     convert shipped_config op t' = Value u).
Proof.
  split; [intros t u w Ht; destruct t as [[|] [|]]; box_simpl; try contradiction; reflexivity|].
  split; [intros t u Hd Ht; destruct t as [[|] [|]]; box_simpl; try discriminate;
          try contradiction; reflexivity|].
  intros t u w t' w' op Ht H; destruct t as [[|] [|]]; box_simpl; box_finish;
    destruct op; reflexivity.
Qed.

End AttrExtras.
